(** * GhosttyBridge/ImGuiShims.c: the two ImGui constructor forwarders

    The translation unit declares two C++ constructors under their mangled
    names and defines two C-named wrappers whose bodies are one call each.
    The constructors live in another object file, so a call to one of them
    is an interaction with the environment: the wrappers are embedded as
    interaction trees whose only visible event is that call.  A linked
    program is obtained by interpreting the events into a state monad over
    the process memory, with an arbitrary implementation of the external
    symbols. *)

From Stdlib Require Import ZArith List String Bool Permutation Lia.
From ITree Require Import ITree ITreeFacts Events.State Events.StateFacts
     Events.Exception Interp.Traces Props.Finite.
Import ITreeNotations ListNotations.
Local Open Scope Z_scope.
Local Open Scope itree_scope.
Local Open Scope string_scope.
Local Open Scope list_scope.

Set Implicit Arguments.

(** ** Handles *)

(** [void *self]: an address.  The file never looks at it. *)
Definition ptr : Type := Z.

Definition NULL : ptr := 0.

(** ** What a C function body can do *)

(** A call to a function that is declared but not defined in this file:
    the symbol the linker has to resolve, and the argument passed. *)
Variant externE : Type -> Type :=
| ExternCall (sym : string) (self : ptr) : externE unit.

(** Accesses to memory through a pointer or to an object of static
    storage, and requests for fresh storage. *)
Variant memE : Type -> Type :=
| Load (a : ptr) : memE Z
| Store (a : ptr) (v : Z) : memE unit
| Alloc (size : Z) : memE ptr.

(** Output on a diagnostic channel. *)
Variant logE : Type -> Type :=
| Log (msg : string) : logE unit.

Definition cE : Type -> Type := externE +' memE +' logE.

Definition call_extern (sym : string) (self : ptr) : itree cE unit :=
  ITree.trigger (inl1 (ExternCall sym self)).

(** ** The translation unit *)

(** Line 11: [void _ZN12ImFontConfigC1Ev(void* self);] *)
Definition _ZN12ImFontConfigC1Ev (self : ptr) : itree cE unit :=
  call_extern "_ZN12ImFontConfigC1Ev" self.

(** Line 12: [void _ZN10ImGuiStyleC1Ev(void* self);] *)
Definition _ZN10ImGuiStyleC1Ev (self : ptr) : itree cE unit :=
  call_extern "_ZN10ImGuiStyleC1Ev" self.

(** Lines 14-16. *)
Definition ImFontConfig_ImFontConfig (self : ptr) : itree cE unit :=
  _ZN12ImFontConfigC1Ev self.

(** Lines 18-20. *)
Definition ImGuiStyle_ImGuiStyle (self : ptr) : itree cE unit :=
  _ZN10ImGuiStyleC1Ev self.

(** ** Declarations as the linker sees them *)

Inductive ctype : Type :=
| Tvoid
| Tpointer (t : ctype).

Record signature : Type := mkSignature
  { sig_params : list ctype;
    sig_result : ctype }.

(** One pointer-to-void parameter and no result: the signature of all
    four declarations. *)
Definition void_of_voidptr : signature :=
  {| sig_params := [Tpointer Tvoid]; sig_result := Tvoid |}.

(** The whole file sits in an [extern "C"] block when compiled as C++, and
    is plain C otherwise. *)
Variant language_linkage : Type := LinkC | LinkCxx.

Variant compiled_as : Type := AsC | AsCxx.

Record fun_decl : Type := mkFunDecl
  { fn_name : string;
    fn_sig : signature;
    fn_linkage : language_linkage;
    fn_body : option (ptr -> itree cE unit) }.

Definition translation_unit : list fun_decl :=
  [ mkFunDecl "_ZN12ImFontConfigC1Ev" void_of_voidptr LinkC None;
    mkFunDecl "_ZN10ImGuiStyleC1Ev" void_of_voidptr LinkC None;
    mkFunDecl "ImFontConfig_ImFontConfig" void_of_voidptr LinkC
              (Some ImFontConfig_ImFontConfig);
    mkFunDecl "ImGuiStyle_ImGuiStyle" void_of_voidptr LinkC
              (Some ImGuiStyle_ImGuiStyle) ].

Definition is_defined (d : fun_decl) : bool :=
  match fn_body d with Some _ => true | None => false end.

Section SymbolTable.

(** The C++ name encoding is the compiler's business; it is never applied
    to a declaration with C linkage. *)
Variable mangle : string -> signature -> string.

Definition link_name (mode : compiled_as) (d : fun_decl) : string :=
  match mode, fn_linkage d with
  | AsCxx, LinkCxx => mangle (fn_name d) (fn_sig d)
  | _, _ => fn_name d
  end.

(** Symbols the object file defines. *)
Definition exported_symbols (mode : compiled_as) (tu : list fun_decl)
  : list (string * signature) :=
  List.map (fun d => (link_name mode d, fn_sig d)) (filter is_defined tu).

(** Symbols the object file leaves for the linker: declared, and not
    defined anywhere in the file. *)
Definition imported_symbols (mode : compiled_as) (tu : list fun_decl)
  : list (string * signature) :=
  let defined := List.map fst (exported_symbols mode tu) in
  List.map (fun d => (link_name mode d, fn_sig d))
      (filter (fun d => negb (is_defined d)
                        && negb (existsb (String.eqb (link_name mode d)) defined))
              tu).

End SymbolTable.

(** ** Linking *)

Section Linked.

(** The process memory, and whatever events the linked program may still
    perform (faults, for instance). *)
Variable mem : Type.
Variable F : Type -> Type.

(** The object file that supplies the external symbols. *)
Variable impl : string -> ptr -> Monads.stateT mem (itree F) unit.

(** The meaning of memory accesses and of logging. *)
Variable h_mem : memE ~> Monads.stateT mem (itree F).
Variable h_log : logE ~> Monads.stateT mem (itree F).

Definition h_extern : externE ~> Monads.stateT mem (itree F) :=
  fun _ e =>
    match e with
    | ExternCall sym self => impl sym self
    end.

Definition h_linked : cE ~> Monads.stateT mem (itree F) :=
  fun _ e =>
    match e with
    | inl1 c => h_extern c
    | inr1 (inl1 a) => h_mem a
    | inr1 (inr1 l) => h_log l
    end.

Definition run {R : Type} (t : itree cE R) : Monads.stateT mem (itree F) R :=
  interp_state h_linked t.

End Linked.

(** ** Traces *)

(** What an observer of the running program sees of one event. *)
Variant action : Type :=
| ACall (sym : string) (self : ptr)
| ALoad (a : ptr)
| AStore (a : ptr) (v : Z)
| AAlloc (size : Z)
| ALog (msg : string).

Definition action_of {X : Type} (e : cE X) : action :=
  match e with
  | inl1 (ExternCall sym self) => ACall sym self
  | inr1 (inl1 (Load a)) => ALoad a
  | inr1 (inl1 (Store a v)) => AStore a v
  | inr1 (inl1 (Alloc n)) => AAlloc n
  | inr1 (inr1 (Log msg)) => ALog msg
  end.

Fixpoint actions {R : Type} (tr : @trace cE R) : list action :=
  match tr with
  | TEnd => []
  | TRet _ => []
  | TEventEnd e => [action_of e]
  | TEventResponse e _ tr' => action_of e :: actions tr'
  end.

(** An effect of the function's own code, as opposed to a call out of the
    file. *)
Definition own_effect (a : action) : bool :=
  match a with
  | ACall _ _ => false
  | ALoad _ | AStore _ _ | AAlloc _ | ALog _ => true
  end.

(** A memory access at address [p]. *)
Definition touches (p : ptr) (a : action) : bool :=
  match a with
  | ALoad q | AStore q _ => Z.eqb p q
  | ACall _ _ | AAlloc _ | ALog _ => false
  end.

(** The trace of a body that calls [sym] on [self] and returns. *)
Definition one_call_trace (sym : string) (self : ptr) : @trace cE unit :=
  TEventResponse (inl1 (ExternCall sym self) : cE unit) tt (TRet tt).

(** [t] does [acts], in that order, and returns: some run of [t] to its
    return shows exactly [acts]; no observation of [t] shows anything that
    is not an initial segment of [acts]; and every run to the return shows
    all of [acts]. *)
Definition performs (t : itree cE unit) (acts : list action) : Prop :=
  (exists tr, is_trace t tr /\ trace_ret tr = Some tt /\ actions tr = acts)
  /\ (forall tr, is_trace t tr ->
       (exists rest, acts = actions tr ++ rest)
       /\ (trace_ret tr = Some tt -> actions tr = acts)).

(** ** Renaming handles *)

(** The same events with every handle passed out of the file replaced by
    its image under [f].  A body that treats its handle as an opaque token
    commutes with every such renaming. *)
Definition rename_extern (f : ptr -> ptr) : externE ~> externE :=
  fun _ c =>
    match c with
    | ExternCall sym self => ExternCall sym (f self)
    end.

Definition rename_handles (f : ptr -> ptr) : cE ~> cE :=
  fun _ e =>
    match e with
    | inl1 c => inl1 (rename_extern f c)
    | inr1 e' => inr1 e'
    end.

(** ** Callers *)

(** A call of one of the two functions the file defines. *)
Variant entry_call : Type :=
| CallFontConfig (self : ptr)
| CallStyle (self : ptr).

Definition enter (c : entry_call) : itree cE unit :=
  match c with
  | CallFontConfig self => ImFontConfig_ImFontConfig self
  | CallStyle self => ImGuiStyle_ImGuiStyle self
  end.

(** A caller that makes the calls [cs] one after the other. *)
Fixpoint session (cs : list entry_call) : itree cE unit :=
  match cs with
  | [] => Ret tt
  | c :: cs' => enter c ;; session cs'
  end.

(** ** Reference behaviour *)

(** Calling the constructor [sym] on [self] directly, in the linked
    program. *)
Definition direct_constructor_call {mem : Type} {F : Type -> Type}
  (impl : string -> ptr -> Monads.stateT mem (itree F) unit)
  (sym : string) (self : ptr) : Monads.stateT mem (itree F) unit :=
  impl sym self.

(** The constructor each entry point stands for. *)
Definition delegated_action (c : entry_call) : action :=
  match c with
  | CallFontConfig self => ACall "_ZN12ImFontConfigC1Ev" self
  | CallStyle self => ACall "_ZN10ImGuiStyleC1Ev" self
  end.

Section FixedConstructors.

(** The external constructors as fixed functions of their argument and of
    the memory they initialise. *)
Variable mem : Type.
Variable ctor : string -> ptr -> mem -> mem.

Definition pure_impl : string -> ptr -> Monads.stateT mem (itree void1) unit :=
  fun sym self m => Ret (ctor sym self m, tt).

Definition delegated_effect (c : entry_call) : mem -> mem :=
  match c with
  | CallFontConfig self => ctor "_ZN12ImFontConfigC1Ev" self
  | CallStyle self => ctor "_ZN10ImGuiStyleC1Ev" self
  end.

Definition session_effect (cs : list entry_call) (m : mem) : mem :=
  fold_left (fun m' c => delegated_effect c m') cs m.

End FixedConstructors.

(** ** A sample library *)

(** Memory as the list of constructions done so far, most recent first:
    which constructor ran on which storage. *)
Definition sample_mem : Type := list (ptr * string).

Definition sample_ctor (sym : string) (self : ptr) (m : sample_mem) : sample_mem :=
  (self, sym) :: m.

(** Constructors that fault on a null handle. *)
Definition sample_impl
  : string -> ptr -> Monads.stateT sample_mem (itree (exceptE string)) unit :=
  fun sym self m =>
    if Z.eqb self NULL
    then throw "null handle"
    else Ret (sample_ctor sym self m, tt).

(** A machine on which every access by the program itself faults, and
    every attempt to log faults. *)
Definition faulting_mem {mem : Type}
  : memE ~> Monads.stateT mem (itree (exceptE string)) :=
  fun _ _ _ => throw "access".

Definition faulting_log {mem : Type}
  : logE ~> Monads.stateT mem (itree (exceptE string)) :=
  fun _ _ _ => throw "log".

(** Constructors that accept any handle. *)
Definition lenient_impl
  : string -> ptr -> Monads.stateT sample_mem (itree (exceptE string)) unit :=
  fun sym self m => Ret (sample_ctor sym self m, tt).

(** The sample library with its style constructor taken out. *)
Definition styleless_impl
  : string -> ptr -> Monads.stateT sample_mem (itree (exceptE string)) unit :=
  fun sym =>
    if String.eqb sym "_ZN10ImGuiStyleC1Ev"
    then fun _ _ => throw "no style constructor"
    else sample_impl sym.

(** A machine on which an access or a log by the program itself never
    completes. *)
Definition stuck_mem {mem : Type} : memE ~> Monads.stateT mem (itree void1) :=
  fun _ _ _ => ITree.spin.

Definition stuck_log {mem : Type} : logE ~> Monads.stateT mem (itree void1) :=
  fun _ _ _ => ITree.spin.

(** ** Callers that go to the library directly *)

Section DirectCalls.

Variable mem : Type.
Variable F : Type -> Type.
Variable impl : string -> ptr -> Monads.stateT mem (itree F) unit.

(** The constructor call that [c] stands for, made on the library itself. *)
Definition direct_call (c : entry_call) : Monads.stateT mem (itree F) unit :=
  match c with
  | CallFontConfig self =>
      direct_constructor_call impl "_ZN12ImFontConfigC1Ev" self
  | CallStyle self =>
      direct_constructor_call impl "_ZN10ImGuiStyleC1Ev" self
  end.

(** The library's constructors called one after the other, each from the
    memory the one before left; a constructor that does not return ends
    the sequence. *)
Fixpoint direct_session (cs : list entry_call) (m : mem)
  : itree F (mem * unit) :=
  match cs with
  | [] => Ret (m, tt)
  | c :: cs' => r <- direct_call c m ;; direct_session cs' (fst r)
  end.

End DirectCalls.

(** ** Counting calls *)

Definition is_call_to (sym : string) (a : action) : bool :=
  match a with
  | ACall s _ => String.eqb s sym
  | ALoad _ | AStore _ _ | AAlloc _ | ALog _ => false
  end.

Definition calls_to (sym : string) (acts : list action) : nat :=
  List.length (filter (is_call_to sym) acts).

Definition is_font_config_call (c : entry_call) : bool :=
  match c with CallFontConfig _ => true | CallStyle _ => false end.

Definition is_style_call (c : entry_call) : bool :=
  match c with CallFontConfig _ => false | CallStyle _ => true end.

(** ** A library whose constructors commute *)

(** Memory as the set of storage slots constructed so far, one bit each. *)
Definition slot_ctor (sym : string) (self : ptr) (m : Z) : Z :=
  Z.lor m (Z.shiftl 1 self).

(** * Results *)

(** ** One external call *)

Ltac inj_events :=
  repeat match goal with
         | H : existT _ _ _ = existT _ _ _ |- _ =>
             apply Eqdep.EqdepTheory.inj_pair2 in H
         end; subst.

Ltac elim_units :=
  repeat match goal with u : unit |- _ => destruct u end.

Lemma call_extern_is_trace (sym : string) (self : ptr) :
  is_trace (call_extern sym self) (one_call_trace sym self).
Proof.
  unfold is_trace, one_call_trace, call_extern. cbn.
  apply TraceVisContinue. cbn. apply TraceRet.
Qed.

(** Every observation of a body that is one external call is an initial
    segment of [one_call_trace]. *)
Lemma call_extern_traces (sym : string) (self : ptr) (tr : @trace cE unit) :
  is_trace (call_extern sym self) tr ->
  tr = TEnd
  \/ tr = TEventEnd (inl1 (ExternCall sym self) : cE unit)
  \/ tr = TEventResponse (inl1 (ExternCall sym self) : cE unit) tt TEnd
  \/ tr = one_call_trace sym self.
Proof.
  unfold is_trace, call_extern. cbn. intros H.
  inversion H; inj_events; clear H.
  - left. reflexivity.
  - right. left. reflexivity.
  - right. right. elim_units.
    match goal with
    | H : is_traceF _ _ |- _ => cbn in H; inversion H; subst; clear H
    end.
    + left. reflexivity.
    + right. unfold one_call_trace. elim_units. reflexivity.
Qed.

Lemma call_extern_actions (sym : string) (self : ptr) (tr : @trace cE unit) :
  is_trace (call_extern sym self) tr ->
  actions tr = [] \/ actions tr = [ACall sym self].
Proof.
  intros H. apply call_extern_traces in H.
  destruct H as [-> | [-> | [-> | ->]]]; cbn; auto.
Qed.

Lemma call_extern_returned (sym : string) (self : ptr) (tr : @trace cE unit) :
  is_trace (call_extern sym self) tr ->
  trace_ret tr = Some tt ->
  tr = one_call_trace sym self.
Proof.
  intros H R. apply call_extern_traces in H.
  destruct H as [-> | [-> | [-> | ->]]]; cbn in R; try discriminate.
  reflexivity.
Qed.

Lemma call_extern_performs (sym : string) (self : ptr) :
  performs (call_extern sym self) [ACall sym self].
Proof.
  split.
  - exists (one_call_trace sym self).
    split; [apply call_extern_is_trace | split; reflexivity].
  - intros tr H. split.
    + destruct (call_extern_actions H) as [-> | ->].
      * exists [ACall sym self]. reflexivity.
      * exists []. reflexivity.
    + intros R. rewrite (call_extern_returned H R). reflexivity.
Qed.

Lemma call_extern_calls (sym : string) (self : ptr) (tr : @trace cE unit)
      (s : string) (p : ptr) :
  is_trace (call_extern sym self) tr ->
  In (ACall s p) (actions tr) ->
  s = sym /\ p = self.
Proof.
  intros H I.
  destruct (call_extern_actions H) as [E | E]; rewrite E in I; cbn in I.
  - contradiction.
  - destruct I as [I | []]. inversion I. split; reflexivity.
Qed.

Lemma call_extern_no_own_effect (sym : string) (self : ptr) (tr : @trace cE unit) :
  is_trace (call_extern sym self) tr ->
  existsb own_effect (actions tr) = false.
Proof.
  intros H. destruct (call_extern_actions H) as [-> | ->]; reflexivity.
Qed.

(** The body is a single node: the call, answered by the one value of
    [unit], and then the return. *)
Lemma call_extern_observe (sym : string) (self : ptr) :
  observe (call_extern sym self)
  = VisF (inl1 (ExternCall sym self) : cE unit) (fun x : unit => Ret x).
Proof. reflexivity. Qed.

Lemma call_extern_all_finite (sym : string) (self : ptr) :
  all_finite (call_extern sym self).
Proof.
  eapply all_finiteVis.
  - apply call_extern_observe.
  - intros x. eapply all_finiteRet. reflexivity.
Qed.

Lemma call_extern_no_touch (sym : string) (self p : ptr) (tr : @trace cE unit) :
  is_trace (call_extern sym self) tr ->
  existsb (touches p) (actions tr) = false.
Proof.
  intros H. destruct (call_extern_actions H) as [-> | ->]; reflexivity.
Qed.

(** ** Entry points, unlinked *)

(** C2: each entry point hands its argument to its constructor as it got
    it.  The run of [ImFontConfig_ImFontConfig h] to its return is the call
    of [_ZN12ImFontConfigC1Ev] on [h]; and whatever is observed of the body,
    every external call in it is a call of that symbol with argument [h].
    The same for [ImGuiStyle_ImGuiStyle] and [_ZN10ImGuiStyleC1Ev]. *)
Theorem forwarder_passes_handle_unchanged (h : ptr) :
  (is_trace (ImFontConfig_ImFontConfig h)
            (one_call_trace "_ZN12ImFontConfigC1Ev" h)
   /\ forall (tr : @trace cE unit) (s : string) (p : ptr),
       is_trace (ImFontConfig_ImFontConfig h) tr ->
       In (ACall s p) (actions tr) ->
       s = "_ZN12ImFontConfigC1Ev" /\ p = h)
  /\ (is_trace (ImGuiStyle_ImGuiStyle h)
               (one_call_trace "_ZN10ImGuiStyleC1Ev" h)
      /\ forall (tr : @trace cE unit) (s : string) (p : ptr),
          is_trace (ImGuiStyle_ImGuiStyle h) tr ->
          In (ACall s p) (actions tr) ->
          s = "_ZN10ImGuiStyleC1Ev" /\ p = h).
Proof.
  split; (split; [apply call_extern_is_trace | ]);
    intros tr s p H I; eapply call_extern_calls; eassumption.
Qed.

(** ** The symbol table *)

(** C3, as the file has it: the object file defines exactly two symbols,
    [ImFontConfig_ImFontConfig] and [ImGuiStyle_ImGuiStyle], under these
    very names whether the file is compiled as C or as C++ and whatever
    the C++ name encoding is; each takes one pointer to void and returns
    nothing. *)
Theorem exported_entry_points
        (mangle : string -> signature -> string) (mode : compiled_as) :
  exported_symbols mangle mode translation_unit
  = [ ("ImFontConfig_ImFontConfig",
       {| sig_params := [Tpointer Tvoid]; sig_result := Tvoid |});
      ("ImGuiStyle_ImGuiStyle",
       {| sig_params := [Tpointer Tvoid]; sig_result := Tvoid |}) ].
Proof. destruct mode; reflexivity. Qed.

Lemma exported_names
      (mangle : string -> signature -> string) (mode : compiled_as) :
  List.map fst (exported_symbols mangle mode translation_unit)
  = ["ImFontConfig_ImFontConfig"; "ImGuiStyle_ImGuiStyle"].
Proof. destruct mode; reflexivity. Qed.

(** C3, as stated, fails: under no compilation mode and no name encoding
    does the object file define a symbol named [initialize_font_config] or
    one named [initialize_style]. *)
Lemma initialize_names_not_exported :
  ~ (exists (mangle : string -> signature -> string) (mode : compiled_as),
        In "initialize_font_config"
           (List.map fst (exported_symbols mangle mode translation_unit))
        \/ In "initialize_style"
              (List.map fst (exported_symbols mangle mode translation_unit))).
Proof.
  intros [mangle [mode H]].
  rewrite exported_names in H. cbn in H.
  destruct H as [[H | [H | []]] | [H | [H | []]]]; discriminate H.
Qed.

(** ** The linked program *)

Section LinkedFacts.

Variable mem : Type.
Variable F : Type -> Type.
Variable impl : string -> ptr -> Monads.stateT mem (itree F) unit.
Variable h_mem : memE ~> Monads.stateT mem (itree F).
Variable h_log : logE ~> Monads.stateT mem (itree F).

Lemma run_call_extern (sym : string) (self : ptr) (m : mem) :
  run impl h_mem h_log (call_extern sym self) m ≈ impl sym self m.
Proof.
  unfold run, call_extern.
  rewrite interp_state_trigger. cbn. reflexivity.
Qed.

Lemma run_ImFontConfig (h : ptr) (m : mem) :
  run impl h_mem h_log (ImFontConfig_ImFontConfig h) m
  ≈ impl "_ZN12ImFontConfigC1Ev" h m.
Proof. apply run_call_extern. Qed.

Lemma run_ImGuiStyle (h : ptr) (m : mem) :
  run impl h_mem h_log (ImGuiStyle_ImGuiStyle h) m
  ≈ impl "_ZN10ImGuiStyleC1Ev" h m.
Proof. apply run_call_extern. Qed.

(** C1: calling [ImGuiStyle_ImGuiStyle] on a handle is observably the same
    as calling the constructor [_ZN10ImGuiStyleC1Ev] directly on it, and
    calling [ImFontConfig_ImFontConfig] the same as calling
    [_ZN12ImFontConfigC1Ev]: as interaction trees the wrapper and the
    declared constructor are bisimilar, and in every linked program, from
    every memory, the wrapper ends in the memory the constructor itself
    leaves (or fails to end, as the constructor does). *)
Theorem forwarder_refines_constructor (h : ptr) (m : mem) :
  (ImGuiStyle_ImGuiStyle h ≅ _ZN10ImGuiStyleC1Ev h
   /\ run impl h_mem h_log (ImGuiStyle_ImGuiStyle h) m
      ≈ direct_constructor_call impl "_ZN10ImGuiStyleC1Ev" h m)
  /\ (ImFontConfig_ImFontConfig h ≅ _ZN12ImFontConfigC1Ev h
      /\ run impl h_mem h_log (ImFontConfig_ImFontConfig h) m
         ≈ direct_constructor_call impl "_ZN12ImFontConfigC1Ev" h m).
Proof.
  unfold direct_constructor_call.
  split; (split; [reflexivity | apply run_call_extern]).
Qed.

(** C4: a call of either entry point does one thing, the call of its
    constructor on the handle.  Unlinked: the body performs exactly that
    one call and returns, and nothing observed of it is a load, a store, an
    allocation or a log message.  Linked, whatever loads, stores,
    allocations and logging mean on the machine: from every memory the call
    has the outcome the constructor itself has from that memory. *)
Theorem forwarder_effects_are_the_delegates (h : ptr) (m : mem) :
  (performs (ImFontConfig_ImFontConfig h) [ACall "_ZN12ImFontConfigC1Ev" h]
   /\ (forall tr : @trace cE unit,
          is_trace (ImFontConfig_ImFontConfig h) tr ->
          existsb own_effect (actions tr) = false)
   /\ run impl h_mem h_log (ImFontConfig_ImFontConfig h) m
      ≈ impl "_ZN12ImFontConfigC1Ev" h m)
  /\ (performs (ImGuiStyle_ImGuiStyle h) [ACall "_ZN10ImGuiStyleC1Ev" h]
      /\ (forall tr : @trace cE unit,
             is_trace (ImGuiStyle_ImGuiStyle h) tr ->
             existsb own_effect (actions tr) = false)
      /\ run impl h_mem h_log (ImGuiStyle_ImGuiStyle h) m
         ≈ impl "_ZN10ImGuiStyleC1Ev" h m).
Proof.
  split; (split; [apply call_extern_performs | split]).
  - intros tr H. eapply call_extern_no_own_effect. exact H.
  - apply run_ImFontConfig.
  - intros tr H. eapply call_extern_no_own_effect. exact H.
  - apply run_ImGuiStyle.
Qed.

(** C5: neither entry point checks its handle or reports anything.  For
    every handle, the null one included, the body starts with the call of
    the constructor on that handle; and in every linked program the call
    has an outcome [out] exactly when the constructor has it: what the
    constructor does on a bad handle, the entry point does, and nothing is
    caught or turned into another result. *)
Theorem forwarder_adds_no_error_path
        (h : ptr) (m : mem) (out : itree F (mem * unit)) :
  (is_trace (ImFontConfig_ImFontConfig NULL)
            (one_call_trace "_ZN12ImFontConfigC1Ev" NULL)
   /\ is_trace (ImFontConfig_ImFontConfig h)
               (one_call_trace "_ZN12ImFontConfigC1Ev" h)
   /\ (run impl h_mem h_log (ImFontConfig_ImFontConfig h) m ≈ out
       <-> impl "_ZN12ImFontConfigC1Ev" h m ≈ out))
  /\ (is_trace (ImGuiStyle_ImGuiStyle NULL)
               (one_call_trace "_ZN10ImGuiStyleC1Ev" NULL)
      /\ is_trace (ImGuiStyle_ImGuiStyle h)
                  (one_call_trace "_ZN10ImGuiStyleC1Ev" h)
      /\ (run impl h_mem h_log (ImGuiStyle_ImGuiStyle h) m ≈ out
          <-> impl "_ZN10ImGuiStyleC1Ev" h m ≈ out)).
Proof.
  split; (split; [apply call_extern_is_trace
                 | split; [apply call_extern_is_trace | ]]).
  - rewrite run_ImFontConfig. reflexivity.
  - rewrite run_ImGuiStyle. reflexivity.
Qed.

(** C6: a call is the entry point, then the constructor, then the return.
    Each body is one node, the call, with a single successor, the return,
    so every path through it is finite; and in every linked program, if the
    constructor returns from memory [m] with memory [m'], so does the entry
    point. *)
Theorem forwarder_is_straight_line_and_returns (h : ptr) (m m' : mem) :
  (observe (ImFontConfig_ImFontConfig h)
   = VisF (inl1 (ExternCall "_ZN12ImFontConfigC1Ev" h) : cE unit)
          (fun x : unit => Ret x)
   /\ all_finite (ImFontConfig_ImFontConfig h)
   /\ (impl "_ZN12ImFontConfigC1Ev" h m ≈ Ret (m', tt) ->
       run impl h_mem h_log (ImFontConfig_ImFontConfig h) m ≈ Ret (m', tt)))
  /\ (observe (ImGuiStyle_ImGuiStyle h)
      = VisF (inl1 (ExternCall "_ZN10ImGuiStyleC1Ev" h) : cE unit)
             (fun x : unit => Ret x)
      /\ all_finite (ImGuiStyle_ImGuiStyle h)
      /\ (impl "_ZN10ImGuiStyleC1Ev" h m ≈ Ret (m', tt) ->
          run impl h_mem h_log (ImGuiStyle_ImGuiStyle h) m ≈ Ret (m', tt))).
Proof.
  split; (split; [apply call_extern_observe
                 | split; [apply call_extern_all_finite | intros H]]).
  - rewrite run_ImFontConfig. exact H.
  - rewrite run_ImGuiStyle. exact H.
Qed.

End LinkedFacts.

(** ** Sequences of calls *)

Lemma enter_is_call_extern (c : entry_call) :
  exists sym self,
    enter c = call_extern sym self /\ delegated_action c = ACall sym self.
Proof.
  destruct c as [self | self].
  - exists "_ZN12ImFontConfigC1Ev", self. split; reflexivity.
  - exists "_ZN10ImGuiStyleC1Ev", self. split; reflexivity.
Qed.

(** What is observed of a call followed by [k]: nothing yet, the call
    pending, or the call answered and then an observation of [k]. *)
Lemma call_then_traces (sym : string) (self : ptr) (k : itree cE unit)
      (tr : @trace cE unit) :
  is_trace (call_extern sym self ;; k) tr ->
  tr = TEnd
  \/ tr = TEventEnd (inl1 (ExternCall sym self) : cE unit)
  \/ exists tr', tr = TEventResponse (inl1 (ExternCall sym self) : cE unit) tt tr'
                 /\ is_trace k tr'.
Proof.
  unfold is_trace, call_extern. cbn. intros H.
  inversion H; inj_events; clear H.
  - left. reflexivity.
  - right. left. reflexivity.
  - right. right. elim_units. eexists. split; [reflexivity | ].
    match goal with H : is_traceF _ _ |- _ => cbn in H; exact H end.
Qed.

Lemma call_then_is_trace (sym : string) (self : ptr) (k : itree cE unit)
      (tr : @trace cE unit) :
  is_trace k tr ->
  is_trace (call_extern sym self ;; k)
           (TEventResponse (inl1 (ExternCall sym self) : cE unit) tt tr).
Proof.
  unfold is_trace, call_extern. cbn. intros H.
  apply TraceVisContinue. cbn. exact H.
Qed.

Lemma session_full_trace (cs : list entry_call) :
  exists tr, is_trace (session cs) tr
             /\ trace_ret tr = Some tt
             /\ actions tr = List.map delegated_action cs.
Proof.
  induction cs as [| c cs IH]; cbn [session List.map].
  - exists (TRet tt). split; [apply TraceRet | split; reflexivity].
  - destruct IH as [tr [T [R A]]].
    destruct (enter_is_call_extern c) as [sym [self [E D]]].
    rewrite E, D.
    exists (TEventResponse (inl1 (ExternCall sym self) : cE unit) tt tr).
    split; [apply call_then_is_trace; exact T | ].
    split; [exact R | cbn; rewrite A; reflexivity].
Qed.

Lemma session_traces (cs : list entry_call) (tr : @trace cE unit) :
  is_trace (session cs) tr ->
  (exists rest, List.map delegated_action cs = actions tr ++ rest)
  /\ (trace_ret tr = Some tt -> actions tr = List.map delegated_action cs).
Proof.
  revert tr. induction cs as [| c cs IH]; intros tr H; cbn [session List.map] in *.
  - unfold is_trace in H. cbn in H. inversion H; subst; cbn.
    + split; [exists []; reflexivity | discriminate].
    + split; [exists []; reflexivity | reflexivity].
  - destruct (enter_is_call_extern c) as [sym [self [E D]]].
    rewrite E in H. rewrite D.
    apply call_then_traces in H.
    destruct H as [-> | [-> | [tr' [-> H]]]]; cbn.
    + split; [eexists; reflexivity | discriminate].
    + split; [eexists; reflexivity | discriminate].
    + destruct (IH tr' H) as [[rest P] C]. split.
      * exists rest. rewrite P. reflexivity.
      * intros R. rewrite (C R). reflexivity.
Qed.

Lemma session_performs (cs : list entry_call) :
  performs (session cs) (List.map delegated_action cs).
Proof.
  split; [apply session_full_trace | apply session_traces].
Qed.

Section FixedConstructorFacts.

Variable mem : Type.
Variable ctor : string -> ptr -> mem -> mem.
Variable h_mem : memE ~> Monads.stateT mem (itree void1).
Variable h_log : logE ~> Monads.stateT mem (itree void1).

Lemma run_enter (c : entry_call) (m : mem) :
  run (pure_impl ctor) h_mem h_log (enter c) m
  ≈ Ret (delegated_effect ctor c m, tt).
Proof.
  destruct c as [self | self]; cbn [enter delegated_effect].
  - rewrite run_ImFontConfig. reflexivity.
  - rewrite run_ImGuiStyle. reflexivity.
Qed.

Lemma run_session (cs : list entry_call) (m : mem) :
  run (pure_impl ctor) h_mem h_log (session cs) m
  ≈ Ret (session_effect ctor cs m, tt).
Proof.
  revert m. induction cs as [| c cs IH]; intros m; cbn [session].
  - unfold run. rewrite interp_state_ret. reflexivity.
  - unfold run. rewrite interp_state_bind.
    fold (run (pure_impl ctor) h_mem h_log (enter c) m).
    rewrite run_enter, bind_ret_l. cbn.
    apply IH.
Qed.

(** C7: the file keeps nothing between calls.  With the constructors fixed
    functions of their argument and of the memory they initialise, the
    effect of a call on the memory is the function
    [delegated_effect ctor c], which is determined by the entry point and
    the handle alone: after any calls [prior1] the call [c] changes the
    memory they left by that function and by nothing else; what is observed
    of the whole sequence is one constructor call per call, each that of
    its own entry point on its own handle; and two runs that make the same
    call [c] after different calls [prior1] and [prior2] end alike as soon
    as those left the same memory. *)
Theorem calls_are_history_independent
        (prior1 prior2 : list entry_call) (c : entry_call) (m1 m2 : mem) :
  run (pure_impl ctor) h_mem h_log (enter c) m1
  ≈ Ret (delegated_effect ctor c m1, tt)
  /\ run (pure_impl ctor) h_mem h_log (session (prior1 ++ [c])) m1
     ≈ Ret (delegated_effect ctor c (session_effect ctor prior1 m1), tt)
  /\ performs (session (prior1 ++ [c]))
              (List.map delegated_action prior1 ++ [delegated_action c])
  /\ (session_effect ctor prior1 m1 = session_effect ctor prior2 m2 ->
      run (pure_impl ctor) h_mem h_log (session (prior1 ++ [c])) m1
      ≈ run (pure_impl ctor) h_mem h_log (session (prior2 ++ [c])) m2).
Proof.
  assert (forall prior m,
             run (pure_impl ctor) h_mem h_log (session (prior ++ [c])) m
             ≈ Ret (delegated_effect ctor c (session_effect ctor prior m), tt))
    as last_call.
  { intros prior m. rewrite run_session. unfold session_effect.
    rewrite fold_left_app. reflexivity. }
  split; [apply run_enter | split; [apply last_call | split]].
  - replace (List.map delegated_action prior1 ++ [delegated_action c])
      with (List.map delegated_action (prior1 ++ [c]))
      by (rewrite List.map_app; reflexivity).
    apply session_performs.
  - intros same. rewrite !last_call, same. reflexivity.
Qed.

End FixedConstructorFacts.

(** ** Opaque handles *)

Lemma call_extern_rename (f : ptr -> ptr) (sym : string) (self : ptr) :
  call_extern sym (f self)
  ≅ translate (rename_handles f) (call_extern sym self).
Proof.
  unfold call_extern, ITree.trigger.
  rewrite translate_vis. cbn.
  apply eqit_Vis. intros u. rewrite translate_ret. reflexivity.
Qed.

Section NullHandle.

Variable mem : Type.
Variable impl : string -> ptr -> Monads.stateT mem (itree (exceptE string)) unit.

(** C9: the bodies do not look at the handle.  Nothing observed of a call
    on [h] is a load or a store, at [h] or at any other address; renaming the handle by any function
    [f] renames the argument of the constructor call and changes nothing
    else, so the body cannot have compared it with anything; on the null
    handle the body is the call of the constructor on the null handle; and
    on a machine where every memory access and every log made by the file's
    own code would fault, a call on the null handle returns whenever the
    constructor returns on it and faults only with the fault the
    constructor raises. *)
Theorem forwarder_never_inspects_handle
        (f : ptr -> ptr) (h : ptr) (m m' : mem) (e : string) :
  ((forall (tr : @trace cE unit) (p : ptr),
       is_trace (ImFontConfig_ImFontConfig h) tr ->
       existsb (touches p) (actions tr) = false)
   /\ ImFontConfig_ImFontConfig (f h)
      ≅ translate (rename_handles f) (ImFontConfig_ImFontConfig h)
   /\ observe (ImFontConfig_ImFontConfig NULL)
      = VisF (inl1 (ExternCall "_ZN12ImFontConfigC1Ev" NULL) : cE unit)
             (fun x : unit => Ret x)
   /\ (impl "_ZN12ImFontConfigC1Ev" NULL m ≈ Ret (m', tt) ->
       run impl faulting_mem faulting_log (ImFontConfig_ImFontConfig NULL) m
       ≈ Ret (m', tt))
   /\ (run impl faulting_mem faulting_log (ImFontConfig_ImFontConfig NULL) m
       ≈ throw e ->
       impl "_ZN12ImFontConfigC1Ev" NULL m ≈ throw e))
  /\ ((forall (tr : @trace cE unit) (p : ptr),
          is_trace (ImGuiStyle_ImGuiStyle h) tr ->
          existsb (touches p) (actions tr) = false)
      /\ ImGuiStyle_ImGuiStyle (f h)
         ≅ translate (rename_handles f) (ImGuiStyle_ImGuiStyle h)
      /\ observe (ImGuiStyle_ImGuiStyle NULL)
         = VisF (inl1 (ExternCall "_ZN10ImGuiStyleC1Ev" NULL) : cE unit)
                (fun x : unit => Ret x)
      /\ (impl "_ZN10ImGuiStyleC1Ev" NULL m ≈ Ret (m', tt) ->
          run impl faulting_mem faulting_log (ImGuiStyle_ImGuiStyle NULL) m
          ≈ Ret (m', tt))
      /\ (run impl faulting_mem faulting_log (ImGuiStyle_ImGuiStyle NULL) m
          ≈ throw e ->
          impl "_ZN10ImGuiStyleC1Ev" NULL m ≈ throw e)).
Proof.
  split.
  - split; [intros tr p H; eapply call_extern_no_touch; exact H | ].
    split; [apply call_extern_rename | ].
    split; [apply call_extern_observe | ].
    split; intros H.
    + rewrite run_ImFontConfig. exact H.
    + rewrite <- run_ImFontConfig. exact H.
  - split; [intros tr p H; eapply call_extern_no_touch; exact H | ].
    split; [apply call_extern_rename | ].
    split; [apply call_extern_observe | ].
    split; intros H.
    + rewrite run_ImGuiStyle. exact H.
    + rewrite <- run_ImGuiStyle. exact H.
Qed.

End NullHandle.

(** ** Pairing of entry points and constructors *)

Lemma imported_constructors
      (mangle : string -> signature -> string) (mode : compiled_as) :
  imported_symbols mangle mode translation_unit
  = [ ("_ZN12ImFontConfigC1Ev", void_of_voidptr);
      ("_ZN10ImGuiStyleC1Ev", void_of_voidptr) ].
Proof. destruct mode; reflexivity. Qed.

Section Pairing.

Variable mem : Type.
Variable F : Type -> Type.
Variable impl impl' : string -> ptr -> Monads.stateT mem (itree F) unit.
Variable h_mem : memE ~> Monads.stateT mem (itree F).
Variable h_log : logE ~> Monads.stateT mem (itree F).

(** C10: each entry point is wired to its own constructor and to no other
    symbol.  [ImFontConfig_ImFontConfig] does call [_ZN12ImFontConfigC1Ev],
    every external call it makes is to that symbol and so none is to
    [_ZN10ImGuiStyleC1Ev], and its linked behaviour is the same under any
    two libraries that agree on [_ZN12ImFontConfigC1Ev], whatever they do
    for other symbols; symmetrically for [ImGuiStyle_ImGuiStyle] and
    [_ZN10ImGuiStyleC1Ev].  The symbols the object file leaves undefined
    are exactly these two constructors. *)
Theorem forwarders_paired_and_disjoint
        (mangle : string -> signature -> string) (mode : compiled_as)
        (h : ptr) (m : mem) :
  (is_trace (ImFontConfig_ImFontConfig h)
            (one_call_trace "_ZN12ImFontConfigC1Ev" h)
   /\ (forall (tr : @trace cE unit) (s : string) (p : ptr),
          is_trace (ImFontConfig_ImFontConfig h) tr ->
          In (ACall s p) (actions tr) ->
          s = "_ZN12ImFontConfigC1Ev" /\ s <> "_ZN10ImGuiStyleC1Ev")
   /\ (impl "_ZN12ImFontConfigC1Ev" = impl' "_ZN12ImFontConfigC1Ev" ->
       run impl h_mem h_log (ImFontConfig_ImFontConfig h) m
       ≈ run impl' h_mem h_log (ImFontConfig_ImFontConfig h) m))
  /\ (is_trace (ImGuiStyle_ImGuiStyle h)
               (one_call_trace "_ZN10ImGuiStyleC1Ev" h)
      /\ (forall (tr : @trace cE unit) (s : string) (p : ptr),
             is_trace (ImGuiStyle_ImGuiStyle h) tr ->
             In (ACall s p) (actions tr) ->
             s = "_ZN10ImGuiStyleC1Ev" /\ s <> "_ZN12ImFontConfigC1Ev")
      /\ (impl "_ZN10ImGuiStyleC1Ev" = impl' "_ZN10ImGuiStyleC1Ev" ->
          run impl h_mem h_log (ImGuiStyle_ImGuiStyle h) m
          ≈ run impl' h_mem h_log (ImGuiStyle_ImGuiStyle h) m))
  /\ List.map fst (imported_symbols mangle mode translation_unit)
     = ["_ZN12ImFontConfigC1Ev"; "_ZN10ImGuiStyleC1Ev"].
Proof.
  split; [ | split; [ | rewrite imported_constructors; reflexivity]].
  - split; [apply call_extern_is_trace | split].
    + intros tr s p H I.
      assert (s = "_ZN12ImFontConfigC1Ev") as ->
          by (eapply call_extern_calls; eassumption).
      split; [reflexivity | discriminate].
    + intros A. rewrite !run_ImFontConfig, A. reflexivity.
  - split; [apply call_extern_is_trace | split].
    + intros tr s p H I.
      assert (s = "_ZN10ImGuiStyleC1Ev") as ->
          by (eapply call_extern_calls; eassumption).
      split; [reflexivity | discriminate].
    + intros A. rewrite !run_ImGuiStyle, A. reflexivity.
Qed.

End Pairing.

(** ** Runs against the sample library *)

(** On storage at 4096 each entry point leaves the construction its own
    constructor records. *)
Lemma forwarder_refines_constructor_sample :
  run sample_impl faulting_mem faulting_log (ImGuiStyle_ImGuiStyle 4096) []
  ≈ Ret ([(4096, "_ZN10ImGuiStyleC1Ev")], tt)
  /\ run sample_impl faulting_mem faulting_log (ImFontConfig_ImFontConfig 4096) []
     ≈ Ret ([(4096, "_ZN12ImFontConfigC1Ev")], tt).
Proof.
  destruct (@forwarder_refines_constructor
              _ _ sample_impl faulting_mem faulting_log 4096 [])
    as [[_ S] [_ C]].
  split; [exact S | exact C].
Defined.

(** On the null handle the fault of the sample constructors comes through
    as it is. *)
Lemma forwarder_adds_no_error_path_null :
  run sample_impl faulting_mem faulting_log (ImFontConfig_ImFontConfig NULL) []
  ≈ throw "null handle"
  /\ run sample_impl faulting_mem faulting_log (ImGuiStyle_ImGuiStyle NULL) []
     ≈ throw "null handle".
Proof.
  destruct (@forwarder_adds_no_error_path
              _ _ sample_impl faulting_mem faulting_log NULL []
              (throw "null handle"))
    as [[_ [_ [_ C]]] [_ [_ [_ S]]]].
  split; [apply C | apply S]; reflexivity.
Defined.

Lemma forwarder_returns_sample :
  run sample_impl faulting_mem faulting_log (ImFontConfig_ImFontConfig 4096) []
  ≈ Ret ([(4096, "_ZN12ImFontConfigC1Ev")], tt)
  /\ run sample_impl faulting_mem faulting_log (ImGuiStyle_ImGuiStyle 4096) []
     ≈ Ret ([(4096, "_ZN10ImGuiStyleC1Ev")], tt).
Proof.
  split.
  - apply (@forwarder_is_straight_line_and_returns
             _ _ sample_impl faulting_mem faulting_log 4096 []
             [(4096, "_ZN12ImFontConfigC1Ev")]).
    reflexivity.
  - apply (@forwarder_is_straight_line_and_returns
             _ _ sample_impl faulting_mem faulting_log 4096 []
             [(4096, "_ZN10ImGuiStyleC1Ev")]).
    reflexivity.
Defined.

(** The same call after different histories: [CallStyle 8] once after
    [CallFontConfig 16] from an empty memory, once with nothing before it
    from the memory that call would have left. *)
Lemma calls_are_history_independent_sample :
  run (pure_impl sample_ctor) stuck_mem stuck_log
      (session [CallFontConfig 16; CallStyle 8]) []
  ≈ run (pure_impl sample_ctor) stuck_mem stuck_log
        (session [CallStyle 8]) [(16, "_ZN12ImFontConfigC1Ev")].
Proof.
  apply (@calls_are_history_independent
           _ sample_ctor stuck_mem stuck_log
           [CallFontConfig 16] [] (CallStyle 8)
           [] [(16, "_ZN12ImFontConfigC1Ev")]).
  reflexivity.
Defined.

(** With constructors that accept a null handle, a call on the null handle
    returns, on a machine where any access by the file itself would
    fault. *)
Lemma forwarder_never_inspects_handle_null :
  run lenient_impl faulting_mem faulting_log (ImFontConfig_ImFontConfig NULL) []
  ≈ Ret ([(NULL, "_ZN12ImFontConfigC1Ev")], tt)
  /\ run lenient_impl faulting_mem faulting_log (ImGuiStyle_ImGuiStyle NULL) []
     ≈ Ret ([(NULL, "_ZN10ImGuiStyleC1Ev")], tt).
Proof.
  split.
  - apply (@forwarder_never_inspects_handle
             _ lenient_impl (fun p => p) NULL []
             [(NULL, "_ZN12ImFontConfigC1Ev")] "access").
    reflexivity.
  - apply (@forwarder_never_inspects_handle
             _ lenient_impl (fun p => p) NULL []
             [(NULL, "_ZN10ImGuiStyleC1Ev")] "access").
    reflexivity.
Defined.

(** Taking the style constructor out of the library changes nothing for
    [ImFontConfig_ImFontConfig]. *)
Lemma forwarders_paired_sample :
  run sample_impl faulting_mem faulting_log (ImFontConfig_ImFontConfig 4096) []
  ≈ run styleless_impl faulting_mem faulting_log (ImFontConfig_ImFontConfig 4096) [].
Proof.
  apply (@forwarders_paired_and_disjoint
           _ _ sample_impl styleless_impl faulting_mem faulting_log
           (fun name _ => name) AsCxx 4096 []).
  reflexivity.
Defined.

(** * Further results *)

(** ** Sequences of calls against any library *)

Section SessionFacts.

Variable mem : Type.
Variable F : Type -> Type.
Variable impl : string -> ptr -> Monads.stateT mem (itree F) unit.
Variable h_mem : memE ~> Monads.stateT mem (itree F).
Variable h_log : logE ~> Monads.stateT mem (itree F).

Lemma run_enter_direct (c : entry_call) (m : mem) :
  run impl h_mem h_log (enter c) m ≈ direct_call impl c m.
Proof.
  destruct c as [self | self]; cbn [enter direct_call];
    unfold direct_constructor_call.
  - apply run_ImFontConfig.
  - apply run_ImGuiStyle.
Qed.

Lemma run_session_direct (cs : list entry_call) (m : mem) :
  run impl h_mem h_log (session cs) m ≈ direct_session impl cs m.
Proof.
  revert m. induction cs as [| c cs IH]; intros m; cbn [session direct_session].
  - unfold run. rewrite interp_state_ret. reflexivity.
  - unfold run. rewrite interp_state_bind.
    eapply eutt_clo_bind.
    + apply run_enter_direct.
    + intros r1 r2 E. subst r2. apply IH.
Qed.

Lemma direct_session_app (cs1 cs2 : list entry_call) (m : mem) :
  direct_session impl (cs1 ++ cs2) m
  ≈ (r <- direct_session impl cs1 m ;; direct_session impl cs2 (fst r)).
Proof.
  revert m. induction cs1 as [| c cs1 IH]; intros m;
    cbn [app direct_session].
  - rewrite bind_ret_l. reflexivity.
  - rewrite bind_bind.
    eapply eutt_clo_bind; [reflexivity | ].
    intros r1 r2 E. subst r2. apply IH.
Qed.

(** X1: a caller that makes any sequence of calls through the two entry
    points behaves, linked with any library and on any machine, as the
    caller that makes the corresponding constructor calls on the library
    itself: same final memory, same fault, same divergence.  And two
    sequences made back to back behave as the first followed by the second
    from the memory the first left. *)
Theorem session_refines_direct_session (cs cs' : list entry_call) (m : mem) :
  run impl h_mem h_log (session cs) m ≈ direct_session impl cs m
  /\ run impl h_mem h_log (session (cs ++ cs')) m
     ≈ (r <- run impl h_mem h_log (session cs) m ;;
        run impl h_mem h_log (session cs') (fst r)).
Proof.
  split; [apply run_session_direct | ].
  rewrite run_session_direct, direct_session_app.
  eapply eutt_clo_bind.
  - symmetry. apply run_session_direct.
  - intros r1 r2 E. subst r2. symmetry. apply run_session_direct.
Qed.

End SessionFacts.

(** ** Faults in a sequence of calls *)

Section SessionFaults.

Variable mem : Type.
Variable err : Type.
Variable impl : string -> ptr -> Monads.stateT mem (itree (exceptE err)) unit.
Variable h_mem : memE ~> Monads.stateT mem (itree (exceptE err)).
Variable h_log : logE ~> Monads.stateT mem (itree (exceptE err)).

Lemma throw_bind (A B : Type) (e : err) (k : A -> itree (exceptE err) B) :
  ITree.bind (throw e) k ≈ throw e.
Proof.
  unfold throw. rewrite bind_vis.
  apply eqit_Vis. intros [].
Qed.

(** X2: a fault raised by a constructor in the middle of a sequence of
    calls ends the sequence with that very fault.  If the constructors of
    the calls [cs1] return and leave memory [m1], and the constructor of
    the next call [c] faults with [e] from [m1], then the caller that makes
    the calls [cs1], [c], [cs2] through the entry points faults with [e],
    whatever [cs2] is: nothing is caught, replaced or retried. *)
Theorem session_stops_at_first_fault
        (cs1 cs2 : list entry_call) (c : entry_call) (m m1 : mem) (e : err) :
  direct_session impl cs1 m ≈ Ret (m1, tt) ->
  direct_call impl c m1 ≈ throw e ->
  run impl h_mem h_log (session (cs1 ++ c :: cs2)) m ≈ throw e.
Proof.
  intros before fault.
  rewrite run_session_direct, direct_session_app, before, bind_ret_l.
  cbn [fst direct_session].
  rewrite fault. apply throw_bind.
Qed.

End SessionFaults.

(** ** Order of calls *)

Section CallOrder.

Variable mem : Type.
Variable ctor : string -> ptr -> mem -> mem.
Variable h_mem : memE ~> Monads.stateT mem (itree void1).
Variable h_log : logE ~> Monads.stateT mem (itree void1).

Lemma session_effect_cons (c : entry_call) (cs : list entry_call) (m : mem) :
  session_effect ctor (c :: cs) m
  = session_effect ctor cs (delegated_effect ctor c m).
Proof. reflexivity. Qed.

Lemma session_effect_permutation (cs cs' : list entry_call) :
  Permutation cs cs' ->
  (forall c1 c2 m, In c1 cs -> In c2 cs ->
                   delegated_effect ctor c1 (delegated_effect ctor c2 m)
                   = delegated_effect ctor c2 (delegated_effect ctor c1 m)) ->
  forall m, session_effect ctor cs m = session_effect ctor cs' m.
Proof.
  induction 1 as [| x l l' P IH | x y l | l l' l'' P1 IH1 P2 IH2];
    intros commute m.
  - reflexivity.
  - rewrite !session_effect_cons. apply IH.
    intros c1 c2 m' I1 I2. apply commute; right; assumption.
  - rewrite !session_effect_cons. f_equal.
    apply commute; [right; left | left]; reflexivity.
  - rewrite (IH1 commute m). apply IH2.
    intros c1 c2 m' I1 I2.
    apply commute; eapply Permutation_in;
      try eassumption; apply Permutation_sym; exact P1.
Qed.

(** X3: the file imposes no order of its own on calls.  With the
    constructors fixed functions, if the effects of the constructors of any
    two calls in a sequence commute, then making the same calls in any
    other order leaves the same memory. *)
Theorem session_order_irrelevant (cs cs' : list entry_call) (m : mem) :
  Permutation cs cs' ->
  (forall c1 c2 m', In c1 cs -> In c2 cs ->
                    delegated_effect ctor c1 (delegated_effect ctor c2 m')
                    = delegated_effect ctor c2 (delegated_effect ctor c1 m')) ->
  run (pure_impl ctor) h_mem h_log (session cs) m
  ≈ run (pure_impl ctor) h_mem h_log (session cs') m.
Proof.
  intros P commute.
  rewrite !run_session.
  rewrite (session_effect_permutation P commute m).
  reflexivity.
Qed.

End CallOrder.

(** ** How many constructor calls a sequence makes *)

Lemma calls_to_delegated_font (cs : list entry_call) :
  calls_to "_ZN12ImFontConfigC1Ev" (List.map delegated_action cs)
  = List.length (filter is_font_config_call cs).
Proof.
  unfold calls_to.
  induction cs as [| [self | self] cs IH]; cbn in *; congruence.
Qed.

Lemma calls_to_delegated_style (cs : list entry_call) :
  calls_to "_ZN10ImGuiStyleC1Ev" (List.map delegated_action cs)
  = List.length (filter is_style_call cs).
Proof.
  unfold calls_to.
  induction cs as [| [self | self] cs IH]; cbn in *; congruence.
Qed.

(** X4: no construction is doubled or dropped.  In any run of a sequence
    of calls to its end, the number of calls of [_ZN12ImFontConfigC1Ev] is
    the number of calls of [ImFontConfig_ImFontConfig] in the sequence, the
    number of calls of [_ZN10ImGuiStyleC1Ev] is the number of calls of
    [ImGuiStyle_ImGuiStyle], and nothing else is observed. *)
Theorem session_call_counts (cs : list entry_call) (tr : @trace cE unit) :
  is_trace (session cs) tr ->
  trace_ret tr = Some tt ->
  calls_to "_ZN12ImFontConfigC1Ev" (actions tr)
  = List.length (filter is_font_config_call cs)
  /\ calls_to "_ZN10ImGuiStyleC1Ev" (actions tr)
     = List.length (filter is_style_call cs)
  /\ List.length (actions tr) = List.length cs.
Proof.
  intros T R.
  destruct (session_traces cs T) as [_ complete].
  rewrite (complete R).
  split; [apply calls_to_delegated_font | split].
  - apply calls_to_delegated_style.
  - apply List.length_map.
Qed.

(** ** Calls and the symbol table *)


(** X6: the file imports nothing it does not use.  Every symbol the object
    file leaves for the linker is called by a function the file defines, on
    the handle that function was given. *)
Theorem every_import_is_called
        (mangle : string -> signature -> string) (mode : compiled_as)
        (s : string) (sg : signature) :
  In (s, sg) (imported_symbols mangle mode translation_unit) ->
  exists (d : fun_decl) (body : ptr -> itree cE unit),
    In d translation_unit
    /\ fn_body d = Some body
    /\ forall h : ptr, is_trace (body h) (one_call_trace s h).
Proof.
  rewrite imported_constructors.
  intros [E | [E | []]]; injection E as <- <-.
  - exists (mkFunDecl "ImFontConfig_ImFontConfig" void_of_voidptr LinkC
                      (Some ImFontConfig_ImFontConfig)),
           ImFontConfig_ImFontConfig.
    split; [cbn; tauto | split; [reflexivity | ]].
    intros h. apply call_extern_is_trace.
  - exists (mkFunDecl "ImGuiStyle_ImGuiStyle" void_of_voidptr LinkC
                      (Some ImGuiStyle_ImGuiStyle)),
           ImGuiStyle_ImGuiStyle.
    split; [cbn; tauto | split; [reflexivity | ]].
    intros h. apply call_extern_is_trace.
Qed.

(** ** Further runs against the sample libraries *)

(** The second of three calls is on the null handle: the sample font
    constructor faults, and the third call is never made. *)
Lemma session_stops_at_first_fault_sample :
  run sample_impl faulting_mem faulting_log
      (session [CallStyle 4096; CallFontConfig NULL; CallStyle 8]) []
  ≈ throw "null handle".
Proof.
  apply (@session_stops_at_first_fault
           _ _ sample_impl faulting_mem faulting_log
           [CallStyle 4096] [CallStyle 8] (CallFontConfig NULL)
           [] [(4096, "_ZN10ImGuiStyleC1Ev")] "null handle").
  - cbn. rewrite bind_ret_l. reflexivity.
  - reflexivity.
Defined.

(** Constructing slot 3 then slot 5, or slot 5 then slot 3. *)
Lemma session_order_irrelevant_sample :
  run (pure_impl slot_ctor) stuck_mem stuck_log
      (session [CallStyle 3; CallFontConfig 5]) 0
  ≈ run (pure_impl slot_ctor) stuck_mem stuck_log
        (session [CallFontConfig 5; CallStyle 3]) 0.
Proof.
  apply (@session_order_irrelevant
           _ slot_ctor stuck_mem stuck_log
           [CallStyle 3; CallFontConfig 5] [CallFontConfig 5; CallStyle 3] 0).
  - apply perm_swap.
  - intros c1 c2 m' _ _.
    destruct c1, c2; cbn; unfold slot_ctor;
      rewrite <- !Z.lor_assoc; f_equal; apply Z.lor_comm.
Defined.

(** Two style calls around one font-config call. *)
Lemma session_call_counts_sample :
  let tr : @trace cE unit :=
    TEventResponse (inl1 (ExternCall "_ZN10ImGuiStyleC1Ev" 8) : cE unit) tt
      (TEventResponse (inl1 (ExternCall "_ZN12ImFontConfigC1Ev" 16) : cE unit) tt
         (TEventResponse (inl1 (ExternCall "_ZN10ImGuiStyleC1Ev" 8) : cE unit) tt
            (TRet tt))) in
  calls_to "_ZN12ImFontConfigC1Ev" (actions tr) = 1%nat
  /\ calls_to "_ZN10ImGuiStyleC1Ev" (actions tr) = 2%nat
  /\ List.length (actions tr) = 3%nat.
Proof.
  cbv zeta.
  apply (@session_call_counts [CallStyle 8; CallFontConfig 16; CallStyle 8]).
  - unfold is_trace. cbn.
    repeat (apply TraceVisContinue; cbn). apply TraceRet.
  - reflexivity.
Defined.


(** The style constructor is imported, and [ImGuiStyle_ImGuiStyle] is the
    function that calls it. *)
Lemma every_import_is_called_sample :
  exists (d : fun_decl) (body : ptr -> itree cE unit),
    In d translation_unit
    /\ fn_body d = Some body
    /\ forall h : ptr, is_trace (body h) (one_call_trace "_ZN10ImGuiStyleC1Ev" h).
Proof.
  apply (@every_import_is_called
           (fun name _ => name) AsC "_ZN10ImGuiStyleC1Ev" void_of_voidptr).
  right. left. reflexivity.
Defined.
